(** * safe-object-access: a shallow embedding of [safeGet] (src/src/index.ts)

    The file [src/src/index.ts] holds two versions of [safeGet]: the current
    one (with the path cache, the options record and the debug warnings) and
    an earlier one without cache and options.  Both are embedded below.

    JavaScript values are modelled by [value]; the operations the code uses
    on them ([!obj], [typeof], [===], [Object.hasOwn], [obj[key]]) by the
    [js_*] functions; the process-wide [pathCache] and the console by the
    [world] threaded through the state-and-exception monad [M]. *)

From Stdlib Require Import String Ascii List Bool Arith ZArith Lia.
From Stdlib Require Import DecimalNat.
From stdpp Require Import base gmap strings list.

Import ListNotations.
Local Open Scope bool_scope.
#[local] Set Warnings "-register-all".

Definition is_some {A} (o : option A) : bool :=
  match o with Some _ => true | None => false end.

(** ** JavaScript values *)

(** Objects carry their own properties (in insertion order) and their
    prototype ([VNull] for [Object.create(null)]); a property not owned is
    looked up along the prototype chain, as [[Get]] does.  Arrays are dense
    lists; numbers are integral (the code never computes with them). *)
Inductive value : Type :=
| VUndef
| VNull
| VBool (b : bool)
| VNum (n : Z)
| VStr (s : string)
| VArr (items : list value)
| VObj (own : list (string * value)) (proto : value).

(** Errors the JavaScript runtime may raise. *)
Inductive js_error : Type :=
| TypeError (msg : string).

Inductive result (A : Type) : Type :=
| Ok (a : A)
| Throw (e : js_error).
Arguments Ok {A} a.
Arguments Throw {A} e.

(** [typeof v] *)
Definition js_typeof (v : value) : string :=
  match v with
  | VUndef => "undefined"
  | VNull => "object"
  | VBool _ => "boolean"
  | VNum _ => "number"
  | VStr _ => "string"
  | VArr _ => "object"
  | VObj _ _ => "object"
  end.

(** [!!v] (NaN is not among the modelled numbers). *)
Definition js_truthy (v : value) : bool :=
  match v with
  | VUndef | VNull => false
  | VBool b => b
  | VNum n => negb (Z.eqb n 0)
  | VStr s => negb (String.eqb s "")
  | VArr _ | VObj _ _ => true
  end.

(** [v === undefined], [v === null], [v === ""] *)
Definition is_undefined (v : value) : bool :=
  match v with VUndef => true | _ => false end.

Definition is_null (v : value) : bool :=
  match v with VNull => true | _ => false end.

Definition is_empty_string (v : value) : bool :=
  match v with VStr s => String.eqb s "" | _ => false end.

(** Decimal rendering of a natural number, as [String(i)] does. *)
Fixpoint uint_to_string (u : Decimal.uint) : string :=
  match u with
  | Decimal.Nil => EmptyString
  | Decimal.D0 u => String "0" (uint_to_string u)
  | Decimal.D1 u => String "1" (uint_to_string u)
  | Decimal.D2 u => String "2" (uint_to_string u)
  | Decimal.D3 u => String "3" (uint_to_string u)
  | Decimal.D4 u => String "4" (uint_to_string u)
  | Decimal.D5 u => String "5" (uint_to_string u)
  | Decimal.D6 u => String "6" (uint_to_string u)
  | Decimal.D7 u => String "7" (uint_to_string u)
  | Decimal.D8 u => String "8" (uint_to_string u)
  | Decimal.D9 u => String "9" (uint_to_string u)
  end.

Definition string_of_nat (n : nat) : string := uint_to_string (Nat.to_uint n).

(** The index named by a property key of an array (or string) of length
    [len]: its own index keys are exactly [String(i)] for [i < len]. *)
Definition array_index (k : string) (len : nat) : option nat :=
  List.find (fun i => String.eqb (string_of_nat i) k) (seq 0 len).

Fixpoint lookup_own (k : string) (own : list (string * value)) : option value :=
  match own with
  | [] => None
  | (k', v) :: own' => if String.eqb k k' then Some v else lookup_own k own'
  end.

(** [Object.hasOwn(v, k)]: [ToObject] throws on [null] and [undefined];
    arrays and strings own their index keys and ["length"]. *)
Definition js_hasOwn (v : value) (k : string) : result bool :=
  match v with
  | VUndef | VNull => Throw (TypeError "Cannot convert undefined or null to object")
  | VBool _ | VNum _ => Ok false
  | VStr s => Ok (String.eqb k "length" || is_some (array_index k (String.length s)))
  | VArr l => Ok (String.eqb k "length" || is_some (array_index k (length l)))
  | VObj own _ => Ok (is_some (lookup_own k own))
  end.

(** [[Get]] of property [k]: own property first, then the prototype chain.
    Members inherited from the built-in [Array.prototype],
    [String.prototype] and the primitive wrappers are not modelled; the code
    reads a property only after [Object.hasOwn] holds for it. *)
Fixpoint get_prop (v : value) (k : string) : value :=
  match v with
  | VObj own proto =>
      match lookup_own k own with
      | Some x => x
      | None => get_prop proto k
      end
  | VArr l =>
      if String.eqb k "length" then VNum (Z.of_nat (length l)) else
      match array_index k (length l) with
      | Some i => nth i l VUndef
      | None => VUndef
      end
  | VStr s =>
      if String.eqb k "length" then VNum (Z.of_nat (String.length s)) else
      match array_index k (String.length s) with
      | Some i =>
          match String.get i s with
          | Some c => VStr (String c EmptyString)
          | None => VUndef
          end
      | None => VUndef
      end
  | _ => VUndef
  end.

(** [v[k]]: reading a property of [null] or [undefined] throws. *)
Definition js_get (v : value) (k : string) : result value :=
  match v with
  | VUndef | VNull => Throw (TypeError "Cannot read properties of null or undefined")
  | _ => Ok (get_prop v k)
  end.

(** ** Path tokenization *)

(** [.replace(/\[/g, ".")] *)
Fixpoint replace_lbracket (s : string) : string :=
  match s with
  | EmptyString => EmptyString
  | String c s' =>
      String (if Ascii.eqb c "[" then "."%char else c) (replace_lbracket s')
  end.

Definition is_stripped (c : ascii) : bool :=
  Ascii.eqb c "'" || Ascii.eqb c "034" || Ascii.eqb c "]".

(** [.replace(...)] removing every single quote, double quote and closing
    bracket (the character class of the second regular expression). *)
Fixpoint strip_quotes (s : string) : string :=
  match s with
  | EmptyString => EmptyString
  | String c s' => if is_stripped c then strip_quotes s' else String c (strip_quotes s')
  end.

(** [.split(".")]: always at least one chunk. *)
Fixpoint split_dot (s : string) : list string :=
  match s with
  | EmptyString => [EmptyString]
  | String c s' =>
      let rest := split_dot s' in
      if Ascii.eqb c "." then EmptyString :: rest
      else match rest with
           | chunk :: tl => String c chunk :: tl
           | [] => [String c EmptyString]
           end
  end.

(** [.filter(Boolean)] on strings drops the empty ones. *)
Definition filter_boolean (l : list string) : list string :=
  List.filter (fun t => negb (String.eqb t "")) l.

Definition tokenize (path : string) : list string :=
  filter_boolean (split_dot (strip_quotes (replace_lbracket path))).

(** ** Options, console and the process-wide state *)

(** [SafeGetOptions]; an omitted flag is [undefined], i.e. false. *)
Record SafeGetOptions : Type := {
  treatNullAsMissing : bool;
  treatEmptyStringAsMissing : bool;
  debug : bool
}.

(** [options: SafeGetOptions = {}] *)
Definition default_options : SafeGetOptions :=
  {| treatNullAsMissing := false; treatEmptyStringAsMissing := false; debug := false |}.

(** The three [console.warn] calls of [safeGet], with their arguments. *)
Inductive warning : Type :=
| WarnNotObject (obj : value)
| WarnStopped (key : string) (current : value)
| WarnMissing (key : string).

(** [pathCache] (a [Map<string, string[]>]) and the console output. *)
Record world : Type := {
  pathCache : gmap string (list string);
  console : list warning
}.

Definition initial_world : world := {| pathCache := ∅; console := [] |}.

(** State-and-exception monad: a thrown error ends the call. *)
Definition M (A : Type) : Type := world -> result (A * world).

Definition ret {A} (a : A) : M A := fun w => Ok (a, w).

Definition bind {A B} (m : M A) (k : A -> M B) : M B :=
  fun w => match m w with
           | Ok (a, w') => k a w'
           | Throw e => Throw e
           end.

Notation "'let*' x ':=' m 'in' k" := (bind m (fun x => k))
  (at level 200, x name, m at level 100, k at level 200).

Definition lift {A} (r : result A) : M A :=
  fun w => match r with Ok a => Ok (a, w) | Throw e => Throw e end.

Definition warn (msg : warning) : M unit :=
  fun w => Ok (tt, {| pathCache := pathCache w; console := console w ++ [msg] |}).

(** [if (options.debug) console.warn(...)] *)
Definition debug_warn (options : SafeGetOptions) (msg : warning) : M unit :=
  if debug options then warn msg else ret tt.

(** [pathCache.get(path)] *)
Definition cache_get (path : string) : M (option (list string)) :=
  fun w => Ok (pathCache w !! path, w).

(** [pathCache.set(path, keys)] *)
Definition cache_set (path : string) (keys : list string) : M unit :=
  fun w => Ok (tt, {| pathCache := <[path := keys]> (pathCache w); console := console w |}).

(** ** [safeGet] (current version, lines 59-122) *)

(** The [for (const key of keys)] loop; [None] stands for the early
    [return defaultValue], [Some current] for leaving the loop. *)
Fixpoint walk (options : SafeGetOptions) (keys : list string) (current : value)
  : M (option value) :=
  match keys with
  | [] => ret (Some current)
  | key :: rest =>
      if is_null current || is_undefined current
         || negb (String.eqb (js_typeof current) "object") then
        let* _ := debug_warn options (WarnStopped key current) in
        ret None
      else
        let* own := lift (js_hasOwn current key) in
        if own then
          let* next := lift (js_get current key) in
          walk options rest next
        else
          let* _ := debug_warn options (WarnMissing key) in
          ret None
  end.

(** [let keys = pathCache.get(path); if (!keys) { ...; pathCache.set(path, keys) }]
    (an array is always truthy, so only a missing entry is recomputed). *)
Definition cached_keys (path : string) : M (list string) :=
  let* cached := cache_get path in
  match cached with
  | Some keys => ret keys
  | None =>
      let keys := tokenize path in
      let* _ := cache_set path keys in
      ret keys
  end.

Definition safeGet (obj : value) (path : string) (defaultValue : value)
  (options : SafeGetOptions) : M value :=
  if negb (js_truthy obj) || negb (String.eqb (js_typeof obj) "object") then
    let* _ := debug_warn options (WarnNotObject obj) in
    ret defaultValue
  else
    let* keys := cached_keys path in
    let* r := walk options keys obj in
    match r with
    | None => ret defaultValue
    | Some current =>
        if is_undefined current then ret defaultValue
        else if is_null current && treatNullAsMissing options then ret defaultValue
        else if is_empty_string current && treatEmptyStringAsMissing options then ret defaultValue
        else ret current
    end.

(** The value a call returns (or the error it throws), from world [w]. *)
Definition run_value (obj : value) (path : string) (defaultValue : value)
  (options : SafeGetOptions) (w : world) : result value :=
  match safeGet obj path defaultValue options w with
  | Ok (v, _) => Ok v
  | Throw e => Throw e
  end.

(** The cache holds, for each path, the tokenization of that path. *)
Definition cache_okb (c : gmap string (list string)) : bool :=
  forallb (fun '(p, ks) => bool_decide (ks = tokenize p)) (map_to_list c).

(** ** [safeGet] (earlier version, lines 166-196): no cache, no options *)

Fixpoint walk_v1 (keys : list string) (current : value) : result (option value) :=
  match keys with
  | [] => Ok (Some current)
  | key :: rest =>
      if is_null current || is_undefined current
         || negb (String.eqb (js_typeof current) "object") then Ok None
      else
        match js_hasOwn current key with
        | Throw e => Throw e
        | Ok true =>
            match js_get current key with
            | Throw e => Throw e
            | Ok next => walk_v1 rest next
            end
        | Ok false => Ok None
        end
  end.

Definition safeGet_v1 (obj : value) (path : string) (defaultValue : value) : result value :=
  if negb (js_truthy obj) || negb (String.eqb (js_typeof obj) "object") then
    Ok defaultValue
  else
    match walk_v1 (tokenize path) obj with
    | Throw e => Throw e
    | Ok None => Ok defaultValue
    | Ok (Some current) => Ok (if is_undefined current then defaultValue else current)
    end.

(** ** Test data of src/src/index.test.ts *)

(** [Object.prototype], with its members [constructor], [toString] and
    [hasOwnProperty] (functions, modelled as empty objects) and the
    [__proto__] accessor (which reads [null] on it). *)
Definition object_prototype : value :=
  VObj [("constructor", VObj [] VNull); ("toString", VObj [] VNull);
        ("hasOwnProperty", VObj [] VNull); ("__proto__", VNull)] VNull.

(** An object literal [{ ... }]. *)
Definition obj_lit (own : list (string * value)) : value := VObj own object_prototype.

Definition testObj : value :=
  obj_lit [("user", obj_lit [("id", VNum 1);
                             ("profile", obj_lit [("name", VStr "Alice");
                                                  ("settings", obj_lit [("theme", VStr "dark");
                                                                        ("notifications", VBool true)])]);
                             ("tags", VArr [VStr "admin"; VStr "editor"])]);
           ("meta", VNull)].

Definition call (obj : value) (path : string) (d : value) : result value :=
  run_value obj path d default_options initial_world.

Example test_nested : call testObj "user.profile.settings.theme" VUndef = Ok (VStr "dark").
Proof. reflexivity. Qed.
Example test_missing : call testObj "user.address.city" (VStr "Unknown") = Ok (VStr "Unknown").
Proof. reflexivity. Qed.
Example test_dot_index : call testObj "user.tags.1" VUndef = Ok (VStr "editor").
Proof. reflexivity. Qed.
Example test_bracket_index : call testObj "user.tags[1]" VUndef = Ok (VStr "editor").
Proof. reflexivity. Qed.
Example test_out_of_range : call testObj "user.tags[2]" VUndef = Ok VUndef.
Proof. reflexivity. Qed.
Example test_null_intermediate : call testObj "meta.foo" (VStr "fallback") = Ok (VStr "fallback").
Proof. reflexivity. Qed.
Example test_proto : call testObj "__proto__" VUndef = Ok VUndef.
Proof. reflexivity. Qed.
Example test_constructor : call testObj "constructor" VUndef = Ok VUndef.
Proof. reflexivity. Qed.
Example test_toString : call testObj "toString" VUndef = Ok VUndef.
Proof. reflexivity. Qed.
Example test_not_object : call (VStr "string") "a.b" (VStr "default") = Ok (VStr "default").
Proof. reflexivity. Qed.
Example test_null_default :
  call (obj_lit [("user", obj_lit [("bio", VNull)])]) "user.bio" (VStr "default") = Ok VNull.
Proof. reflexivity. Qed.
Example test_null_missing :
  run_value (obj_lit [("user", obj_lit [("bio", VNull)])]) "user.bio" (VStr "default")
    {| treatNullAsMissing := true; treatEmptyStringAsMissing := false; debug := false |}
    initial_world = Ok (VStr "default").
Proof. reflexivity. Qed.
Example test_tokenize :
  tokenize "a.b[0].c" = ["a"; "b"; "0"; "c"]%string /\
  tokenize "a['b'][0].c" = ["a"; "b"; "0"; "c"]%string.
Proof. split; reflexivity. Qed.
Example test_debug_stopped :
  safeGet (obj_lit [("a", VNull)]) "a.b" (VStr "default")
    {| treatNullAsMissing := false; treatEmptyStringAsMissing := false; debug := true |}
    initial_world
  = Ok (VStr "default", {| pathCache := <["a.b" := ["a"; "b"]]> ∅;
                           console := [WarnStopped "b" VNull] |}).
Proof. reflexivity. Qed.
Example test_length : call testObj "user.tags.length" (VStr "d") = Ok (VNum 2).
Proof. reflexivity. Qed.

(** ** Token shape *)

Fixpoint str_forallb (f : ascii -> bool) (s : string) : bool :=
  match s with
  | EmptyString => true
  | String c s' => f c && str_forallb f s'
  end.

(** A character that survives tokenization inside a key: not a separator
    ([.] or [\[]) and not stripped ([\]] and the quotes). *)
Definition plain_char (c : ascii) : bool :=
  negb (Ascii.eqb c "[" || is_stripped c) && negb (Ascii.eqb c ".").

Definition plain_token (t : string) : bool :=
  negb (String.eqb t "") && str_forallb plain_char t.

(** ** Prototype-free copies *)

(** The same data with every prototype replaced by [null], as if every
    object had been built with [Object.create(null)]. *)
Fixpoint strip_protos (v : value) : value :=
  match v with
  | VArr items => VArr (map strip_protos items)
  | VObj own _ => VObj (map (fun '(k, x) => (k, strip_protos x)) own) VNull
  | _ => v
  end.

(** The same data without the own properties whose key is not a plain
    token (empty, or holding a separator, a closing bracket or a quote), at
    every depth. *)
Fixpoint drop_unplain (v : value) : value :=
  match v with
  | VArr items => VArr (map drop_unplain items)
  | VObj own proto =>
      VObj (List.filter (fun '(k, _) => plain_token k)
              (map (fun '(k, x) => (k, drop_unplain x)) own))
           (drop_unplain proto)
  | _ => v
  end.

(** ** General lemmas *)

Lemma world_eta (w : world) :
  {| pathCache := pathCache w; console := console w |} = w.
Proof. destruct w; reflexivity. Qed.

(** A traversable root or intermediate: [typeof v === "object"] and not null. *)
Definition traversable (v : value) : bool :=
  match v with VArr _ | VObj _ _ => true | _ => false end.

Lemma guard_traversable (v : value) :
  is_null v || is_undefined v || negb (String.eqb (js_typeof v) "object")
  = negb (traversable v).
Proof. destruct v; reflexivity. Qed.

Lemma root_guard_traversable (v : value) :
  negb (js_truthy v) || negb (String.eqb (js_typeof v) "object")
  = negb (traversable v).
Proof. destruct v; simpl; rewrite ?orb_true_r; reflexivity. Qed.

Ltac unfold_monad := unfold bind, ret, lift, debug_warn, warn in *.

(** The loop never throws; its outcome and its warnings do not depend on
    the world, and it leaves the cache alone. *)
Lemma walk_spec (options : SafeGetOptions) (keys : list string) :
  forall current, exists r logs, forall w,
    walk options keys current w
    = Ok (r, {| pathCache := pathCache w; console := console w ++ logs |}).
Proof.
  induction keys as [|key rest IH]; intros current.
  - exists (Some current), []. intros w. simpl. rewrite app_nil_r, world_eta. reflexivity.
  - simpl. rewrite guard_traversable.
    destruct (traversable current) eqn:Ht; simpl.
    + destruct current; try discriminate; simpl.
      * (* array *)
        destruct (String.eqb key "length" || is_some (array_index key (length items))).
        -- destruct (IH (get_prop (VArr items) key)) as (r & logs & H).
           exists r, logs. intros w. unfold_monad. apply H.
        -- exists None, (if debug options then [WarnMissing key] else []).
           intros w. unfold_monad. destruct (debug options).
           ++ reflexivity.
           ++ rewrite app_nil_r, world_eta. reflexivity.
      * destruct (is_some (lookup_own key own)).
        -- destruct (IH (get_prop (VObj own current) key)) as (r & logs & H).
           exists r, logs. intros w. unfold_monad. apply H.
        -- exists None, (if debug options then [WarnMissing key] else []).
           intros w. unfold_monad. destruct (debug options).
           ++ reflexivity.
           ++ rewrite app_nil_r, world_eta. reflexivity.
    + exists None, (if debug options then [WarnStopped key current] else []).
      intros w. unfold_monad. destruct (debug options).
      * reflexivity.
      * rewrite app_nil_r, world_eta. reflexivity.
Qed.

(** The loop stops on a step that is not traversable. *)
Lemma walk_stop_untraversable (options : SafeGetOptions) key rest current w :
  traversable current = false ->
  exists w', walk options (key :: rest) current w = Ok (None, w').
Proof.
  intros Ht. simpl. rewrite guard_traversable, Ht. simpl. unfold_monad.
  destruct (debug options); eauto.
Qed.

(** A step on a traversable value follows [Object.hasOwn] and [current[key]]. *)
Lemma walk_step_own (options : SafeGetOptions) key rest current w :
  traversable current = true ->
  js_hasOwn current key = Ok true ->
  walk options (key :: rest) current w = walk options rest (get_prop current key) w.
Proof.
  intros Ht Ho. simpl. rewrite guard_traversable, Ht. simpl. unfold_monad.
  rewrite Ho. destruct current; try discriminate; reflexivity.
Qed.

Lemma walk_step_missing (options : SafeGetOptions) key rest current w :
  js_hasOwn current key = Ok false ->
  exists w', walk options (key :: rest) current w = Ok (None, w').
Proof.
  intros Ho. destruct (traversable current) eqn:Ht.
  - simpl. rewrite guard_traversable, Ht. simpl. unfold_monad.
    rewrite Ho. destruct (debug options); eauto.
  - apply walk_stop_untraversable; assumption.
Qed.

Lemma walk_app (options : SafeGetOptions) ks1 ks2 :
  forall current w cur w1,
    walk options ks1 current w = Ok (Some cur, w1) ->
    walk options (ks1 ++ ks2) current w = walk options ks2 cur w1.
Proof.
  induction ks1 as [|k ks1 IH]; intros current w cur w1 H.
  - simpl in *. unfold ret in H. congruence.
  - simpl in *. destruct (is_null current || is_undefined current
                          || negb (String.eqb (js_typeof current) "object")).
    + unfold_monad. destruct (debug options); discriminate.
    + unfold_monad. destruct (js_hasOwn current k) as [[|]|]; try discriminate.
      * destruct (js_get current k); try discriminate. eapply IH; eauto.
      * destruct (debug options); discriminate.
Qed.

Lemma cache_okb_spec (c : gmap string (list string)) :
  cache_okb c = true <-> forall p ks, c !! p = Some ks -> ks = tokenize p.
Proof.
  unfold cache_okb. rewrite forallb_forall. split.
  - intros H p ks Hl. apply elem_of_map_to_list, list_elem_of_In in Hl.
    specialize (H _ Hl). simpl in H. apply bool_decide_eq_true in H. exact H.
  - intros H [p ks] Hin. apply bool_decide_eq_true. apply H.
    apply elem_of_map_to_list, list_elem_of_In. exact Hin.
Qed.

Lemma cache_okb_insert (c : gmap string (list string)) p :
  cache_okb c = true -> cache_okb (<[p := tokenize p]> c) = true.
Proof.
  rewrite !cache_okb_spec. intros H q ks Hl.
  destruct (decide (p = q)) as [->|Hne].
  - rewrite lookup_insert_eq in Hl. congruence.
  - rewrite lookup_insert_ne in Hl by exact Hne. apply H, Hl.
Qed.

(** With a consistent cache, [cached_keys] yields the tokenization of the
    path, keeps the cache consistent and prints nothing. *)
Lemma cached_keys_ok path w :
  cache_okb (pathCache w) = true ->
  exists c', cached_keys path w = Ok (tokenize path, {| pathCache := c'; console := console w |})
             /\ cache_okb c' = true.
Proof.
  intros Hc. unfold cached_keys, cache_get, cache_set, bind, ret.
  destruct (pathCache w !! path) as [ks|] eqn:Hl.
  - exists (pathCache w). rewrite world_eta.
    pose proof (proj1 (cache_okb_spec _) Hc path ks Hl) as E. subst ks. auto.
  - eexists. split; [reflexivity|]. apply cache_okb_insert, Hc.
Qed.

(** [cached_keys] never throws and leaves the console alone. *)
Lemma cached_keys_total path w :
  exists keys c', cached_keys path w = Ok (keys, {| pathCache := c'; console := console w |}).
Proof.
  unfold cached_keys, cache_get, cache_set, bind, ret.
  destruct (pathCache w !! path) as [ks|]; eauto.
  exists ks, (pathCache w). rewrite world_eta. reflexivity.
Qed.

(** Unfolding [safeGet] on a traversable root. *)
Lemma safeGet_traversable obj path d options w :
  traversable obj = true ->
  safeGet obj path d options w
  = bind (cached_keys path)
      (fun keys => bind (walk options keys obj)
         (fun r => match r with
                   | None => ret d
                   | Some current =>
                       if is_undefined current then ret d
                       else if is_null current && treatNullAsMissing options then ret d
                       else if is_empty_string current && treatEmptyStringAsMissing options
                       then ret d else ret current
                   end)) w.
Proof.
  intros Ht. unfold safeGet. rewrite root_guard_traversable, Ht. reflexivity.
Qed.

(** What the code returns once the loop is over ([None]: early return). *)
Definition finish (options : SafeGetOptions) (d : value) (r : option value) : value :=
  match r with
  | None => d
  | Some current =>
      if is_undefined current then d
      else if is_null current && treatNullAsMissing options then d
      else if is_empty_string current && treatEmptyStringAsMissing options then d
      else current
  end.

Lemma finish_ret (options : SafeGetOptions) d r :
  match r with
  | None => ret d
  | Some current =>
      if is_undefined current then ret d
      else if is_null current && treatNullAsMissing options then ret d
      else if is_empty_string current && treatEmptyStringAsMissing options
      then ret d else ret current
  end = ret (finish options d r).
Proof.
  destruct r as [current|]; simpl; [|reflexivity].
  destruct (is_undefined current); [reflexivity|].
  destruct (is_null current && treatNullAsMissing options); [reflexivity|].
  destruct (is_empty_string current && treatEmptyStringAsMissing options); reflexivity.
Qed.

Lemma safeGet_root_guard obj path d options w :
  traversable obj = false ->
  safeGet obj path d options w
  = Ok (d, {| pathCache := pathCache w;
              console := console w ++ (if debug options then [WarnNotObject obj] else []) |}).
Proof.
  intros Ht. unfold safeGet. rewrite root_guard_traversable, Ht. simpl. unfold_monad.
  destruct (debug options); [reflexivity|]. rewrite app_nil_r, world_eta. reflexivity.
Qed.

(** With a consistent cache, a call on a traversable root returns the loop
    outcome on the tokenized path, post-processed, and keeps the cache
    consistent. *)
Lemma safeGet_walk obj path d options w r w1 w2 :
  cache_okb (pathCache w) = true ->
  traversable obj = true ->
  walk options (tokenize path) obj w1 = Ok (r, w2) ->
  exists w', safeGet obj path d options w = Ok (finish options d r, w')
             /\ cache_okb (pathCache w') = true.
Proof.
  intros Hc Ht Hw. rewrite safeGet_traversable by exact Ht.
  destruct (cached_keys_ok path w Hc) as (c' & Hk & Hc').
  destruct (walk_spec options (tokenize path) obj) as (r' & logs & Hs).
  rewrite Hs in Hw. injection Hw as <- _.
  unfold bind at 1. rewrite Hk. unfold bind. rewrite Hs. rewrite finish_ret.
  unfold ret. eexists; split; [reflexivity|]. exact Hc'.
Qed.

Lemma run_value_walk obj path d options w r w1 w2 :
  cache_okb (pathCache w) = true ->
  traversable obj = true ->
  walk options (tokenize path) obj w1 = Ok (r, w2) ->
  run_value obj path d options w = Ok (finish options d r).
Proof.
  intros Hc Ht Hw. destruct (safeGet_walk obj path d options w r w1 w2 Hc Ht Hw) as (w' & E & _).
  unfold run_value. rewrite E. reflexivity.
Qed.

(** The loop outcome does not depend on the options nor on the world. *)
Lemma walk_outcome_indep (o1 o2 : SafeGetOptions) keys :
  forall current w1 w2 r1 r2 w1' w2',
    walk o1 keys current w1 = Ok (r1, w1') ->
    walk o2 keys current w2 = Ok (r2, w2') -> r1 = r2.
Proof.
  induction keys as [|k rest IH]; intros current w1 w2 r1 r2 w1' w2' H1 H2.
  - simpl in *. unfold ret in *. congruence.
  - simpl in *. destruct (is_null current || is_undefined current
                          || negb (String.eqb (js_typeof current) "object")).
    + unfold_monad. destruct (debug o1), (debug o2); simpl in *; congruence.
    + unfold_monad. destruct (js_hasOwn current k) as [[|]|]; try discriminate.
      * destruct (js_get current k); try discriminate. eapply IH; eauto.
      * destruct (debug o1), (debug o2); simpl in *; congruence.
Qed.

(** A loop that leaves with [Some cur], [cur] traversable, started on a
    traversable value. *)
Lemma walk_some_traversable (options : SafeGetOptions) keys obj w1 cur w2 :
  walk options keys obj w1 = Ok (Some cur, w2) ->
  traversable cur = true -> traversable obj = true.
Proof.
  intros Hw Hcur. destruct (traversable obj) eqn:Ht; [reflexivity|].
  destruct keys as [|k rest].
  - simpl in Hw. unfold ret in Hw. congruence.
  - destruct (walk_stop_untraversable options k rest obj w1 Ht) as (w' & E).
    congruence.
Qed.

(** The loop of the earlier version has the same outcome as the current one. *)
Lemma walk_v1_walk (options : SafeGetOptions) keys :
  forall current w r w', walk options keys current w = Ok (r, w') -> walk_v1 keys current = Ok r.
Proof.
  induction keys as [|k rest IH]; intros current w r w' H.
  - simpl in *. unfold ret in H. congruence.
  - simpl in *. destruct (is_null current || is_undefined current
                          || negb (String.eqb (js_typeof current) "object")).
    + unfold_monad. destruct (debug options); simpl in *; congruence.
    + unfold_monad. destruct (js_hasOwn current k) as [[|]|]; try discriminate.
      * destruct (js_get current k); try discriminate. eapply IH; eauto.
      * destruct (debug options); simpl in *; congruence.
Qed.

Lemma cache_okb_empty : cache_okb ∅ = true.
Proof. unfold cache_okb. rewrite map_to_list_empty. reflexivity. Qed.

(** Decimal index keys. *)

Lemma to_uint_not_nil (n : nat) : Nat.to_uint n <> Decimal.Nil.
Proof.
  rewrite <- (DecimalNat.Unsigned.of_to n), DecimalNat.Unsigned.to_of.
  unfold Decimal.unorm. destruct (Decimal.nzhead _); discriminate.
Qed.

Lemma uint_to_string_inj (u1 u2 : Decimal.uint) :
  uint_to_string u1 = uint_to_string u2 -> u1 = u2.
Proof.
  revert u2. induction u1; intros u2; destruct u2; simpl; intros H;
    try discriminate; try reflexivity; injection H as H; f_equal; auto.
Qed.

Lemma string_of_nat_inj (i j : nat) : string_of_nat i = string_of_nat j -> i = j.
Proof.
  unfold string_of_nat. intros H. apply uint_to_string_inj in H.
  rewrite <- (DecimalNat.Unsigned.of_to i), <- (DecimalNat.Unsigned.of_to j), H.
  reflexivity.
Qed.

Lemma string_of_nat_not_empty (i : nat) : string_of_nat i <> "".
Proof.
  unfold string_of_nat. pose proof (to_uint_not_nil i) as H.
  destruct (Nat.to_uint i); simpl; congruence.
Qed.

Ltac not_decimal := intros i; unfold string_of_nat; destruct (Nat.to_uint i); simpl; discriminate.

Lemma string_of_nat_not_length : forall i, string_of_nat i <> "length".
Proof. not_decimal. Qed.
Lemma string_of_nat_not_proto : forall i, string_of_nat i <> "__proto__".
Proof. not_decimal. Qed.
Lemma string_of_nat_not_constructor : forall i, string_of_nat i <> "constructor".
Proof. not_decimal. Qed.
Lemma string_of_nat_not_prototype : forall i, string_of_nat i <> "prototype".
Proof. not_decimal. Qed.

Lemma find_seq_unique (f : nat -> bool) (i : nat) :
  forall a n, a <= i < a + n -> f i = true -> (forall j, f j = true -> j = i) ->
  List.find f (seq a n) = Some i.
Proof.
  intros a n. revert a. induction n as [|n IH]; intros a Hr Hf Hu; [lia|].
  simpl. destruct (f a) eqn:E.
  - rewrite (Hu a E). reflexivity.
  - assert (a <> i) by (intros ->; congruence). apply IH; auto; lia.
Qed.

Lemma array_index_of_nat (i n : nat) : i < n -> array_index (string_of_nat i) n = Some i.
Proof.
  intros Hi. unfold array_index. apply find_seq_unique; [lia | apply String.eqb_refl |].
  intros j Hj. apply String.eqb_eq in Hj. apply string_of_nat_inj, Hj.
Qed.

Lemma array_index_none (k : string) (n : nat) :
  (forall i, i < n -> k <> string_of_nat i) -> array_index k n = None.
Proof.
  intros H. unfold array_index. destruct (List.find _ _) as [j|] eqn:E; [|reflexivity].
  apply find_some in E as [Hin Hf]. apply in_seq in Hin. apply String.eqb_eq in Hf.
  exfalso. apply (H j); [lia | symmetry; exact Hf].
Qed.

(** Tokenization of concatenated paths. *)

Lemma append_cons (c : ascii) (s t : string) : (String c s ++ t)%string = String c (s ++ t).
Proof. reflexivity. Qed.

Lemma append_empty (t : string) : ("" ++ t)%string = t.
Proof. reflexivity. Qed.

Lemma string_app_nil (s : string) : (s ++ "")%string = s.
Proof. induction s as [|c s IH]; [reflexivity|]. rewrite append_cons, IH. reflexivity. Qed.

Lemma replace_lbracket_app (a b : string) :
  replace_lbracket (a ++ b) = (replace_lbracket a ++ replace_lbracket b)%string.
Proof.
  induction a as [|c a IH]; [reflexivity|].
  rewrite append_cons. cbn [replace_lbracket]. rewrite append_cons, IH. reflexivity.
Qed.

Lemma strip_quotes_app (a b : string) :
  strip_quotes (a ++ b) = (strip_quotes a ++ strip_quotes b)%string.
Proof.
  induction a as [|c a IH]; [reflexivity|].
  rewrite append_cons. cbn [strip_quotes].
  destruct (is_stripped c); [exact IH|]. rewrite append_cons, IH. reflexivity.
Qed.

Lemma split_dot_not_nil (s : string) : split_dot s <> [].
Proof.
  destruct s as [|c s]; simpl; [discriminate|].
  destruct (Ascii.eqb c "."); [discriminate|]. destruct (split_dot s); discriminate.
Qed.

Lemma split_dot_app_dot (a b : string) :
  split_dot (a ++ String "." b) = split_dot a ++ split_dot b.
Proof.
  induction a as [|c a IH]; [reflexivity|].
  rewrite append_cons. cbn [split_dot]. rewrite IH.
  destruct (Ascii.eqb c "."); [reflexivity|].
  destruct (split_dot a) eqn:E; [exfalso; exact (split_dot_not_nil a E) | reflexivity].
Qed.

Lemma uint_to_string_plain (u : Decimal.uint) :
  replace_lbracket (uint_to_string u) = uint_to_string u /\
  strip_quotes (uint_to_string u) = uint_to_string u /\
  split_dot (uint_to_string u) = [uint_to_string u].
Proof.
  induction u; simpl; [repeat split|..];
    destruct IHu as (H1 & H2 & H3); rewrite H1, H2, H3; repeat split.
Qed.

Lemma tokenize_dot_index (p : string) (i : nat) :
  tokenize (p ++ "." ++ string_of_nat i) = tokenize p ++ [string_of_nat i].
Proof.
  unfold tokenize. pose proof (string_of_nat_not_empty i) as Hne.
  unfold string_of_nat in *.
  destruct (uint_to_string_plain (Nat.to_uint i)) as (H1 & H2 & H3).
  rewrite append_cons, append_empty, replace_lbracket_app. simpl.
  rewrite H1, strip_quotes_app. simpl. rewrite H2.
  rewrite split_dot_app_dot, H3. unfold filter_boolean. rewrite List.filter_app. simpl.
  apply String.eqb_neq in Hne. rewrite Hne. reflexivity.
Qed.

Lemma tokenize_bracket_index (p : string) (i : nat) :
  tokenize (p ++ "[" ++ string_of_nat i ++ "]") = tokenize p ++ [string_of_nat i].
Proof.
  rewrite <- tokenize_dot_index. unfold tokenize. f_equal. f_equal.
  unfold string_of_nat.
  destruct (uint_to_string_plain (Nat.to_uint i)) as (H1 & H2 & H3).
  rewrite !append_cons, !append_empty, !replace_lbracket_app, !strip_quotes_app.
  simpl. rewrite replace_lbracket_app, strip_quotes_app, H1, H2.
  simpl. rewrite string_app_nil. reflexivity.
Qed.

Lemma hasOwn_arr_index (l : list value) (i : nat) :
  i < length l -> js_hasOwn (VArr l) (string_of_nat i) = Ok true.
Proof.
  intros Hi. cbn -[string_of_nat array_index String.eqb].
  rewrite array_index_of_nat by exact Hi. rewrite orb_true_r. reflexivity.
Qed.

Lemma get_prop_arr_index (l : list value) (i : nat) :
  i < length l -> get_prop (VArr l) (string_of_nat i) = nth i l VUndef.
Proof.
  intros Hi. cbn -[string_of_nat array_index String.eqb].
  rewrite (proj2 (String.eqb_neq _ _) (string_of_nat_not_length i)).
  rewrite array_index_of_nat by exact Hi. reflexivity.
Qed.

Lemma hasOwn_arr_absent (l : list value) (k : string) :
  k <> "length" -> (forall i, i < length l -> k <> string_of_nat i) ->
  js_hasOwn (VArr l) k = Ok false.
Proof.
  intros Hlen Hidx. cbn -[array_index String.eqb].
  rewrite array_index_none by exact Hidx.
  rewrite (proj2 (String.eqb_neq _ _) Hlen). reflexivity.
Qed.

(** The key set the README says is protected. *)
Definition reserved_keys : list string := ["__proto__"; "constructor"; "prototype"].

Lemma reserved_not_array_key (k : string) :
  In k reserved_keys -> k <> "length" /\ forall i, k <> string_of_nat i.
Proof.
  intros Hk. simpl in Hk.
  destruct Hk as [<-|[<-|[<-|[]]]]; (split; [discriminate|]); intros i E; symmetry in E.
  - exact (string_of_nat_not_proto i E).
  - exact (string_of_nat_not_constructor i E).
  - exact (string_of_nat_not_prototype i E).
Qed.

(** Tokenization of a general concatenation. *)

Lemma tokenize_app_dot (a b : string) :
  tokenize (a ++ "." ++ b) = tokenize a ++ tokenize b.
Proof.
  unfold tokenize. rewrite append_cons, append_empty, replace_lbracket_app. simpl.
  rewrite strip_quotes_app. simpl. rewrite split_dot_app_dot.
  unfold filter_boolean. rewrite List.filter_app. reflexivity.
Qed.

Lemma str_forallb_replace (s : string) :
  str_forallb (fun c => negb (Ascii.eqb c "[")) (replace_lbracket s) = true.
Proof.
  induction s as [|c s IH]; [reflexivity|]. simpl.
  destruct (Ascii.eqb c "[") eqn:E; simpl; rewrite IH; [reflexivity|]. rewrite E. reflexivity.
Qed.

Lemma str_forallb_strip (s : string) :
  str_forallb (fun c => negb (Ascii.eqb c "[")) s = true ->
  str_forallb (fun c => negb (Ascii.eqb c "[" || is_stripped c)) (strip_quotes s) = true.
Proof.
  induction s as [|c s IH]; [reflexivity|]. simpl. intros H.
  apply andb_prop in H as [Hc Hs]. destruct (is_stripped c) eqn:E; [apply IH, Hs|].
  simpl. rewrite E, orb_false_r, Hc, IH by exact Hs. reflexivity.
Qed.

Lemma str_forallb_split (h : ascii -> bool) (s : string) :
  str_forallb h s = true ->
  forallb (str_forallb (fun c => h c && negb (Ascii.eqb c "."))) (split_dot s) = true.
Proof.
  induction s as [|c s IH]; [reflexivity|]. simpl. intros H.
  apply andb_prop in H as [Hc Hs]. specialize (IH Hs).
  destruct (Ascii.eqb c ".") eqn:E; [simpl; exact IH|].
  destruct (split_dot s) as [|chunk tl]; simpl in *.
  - rewrite Hc, E. reflexivity.
  - apply andb_prop in IH as [H1 H2]. rewrite Hc, E, H1, H2. reflexivity.
Qed.

Lemma filter_boolean_nonempty (l : list string) :
  forallb (fun t => negb (String.eqb t "")) (filter_boolean l) = true.
Proof.
  induction l as [|t l IH]; [reflexivity|]. unfold filter_boolean in *. simpl.
  destruct (negb (String.eqb t "")) eqn:E; simpl; [rewrite E|]; exact IH.
Qed.

Lemma forallb_filter_boolean (f : string -> bool) (l : list string) :
  forallb f l = true -> forallb f (filter_boolean l) = true.
Proof.
  induction l as [|t l IH]; [reflexivity|]. unfold filter_boolean in *. simpl.
  intros H. apply andb_prop in H as [Ht Hl].
  destruct (negb (String.eqb t "")); simpl; [rewrite Ht|]; apply IH, Hl.
Qed.

Lemma tokenize_plain_tokens (path : string) : forallb plain_token (tokenize path) = true.
Proof.
  unfold tokenize.
  pose proof (str_forallb_split _ _ (str_forallb_strip _ (str_forallb_replace path))) as Hs.
  pose proof (forallb_filter_boolean _ _ Hs) as Hf.
  pose proof (filter_boolean_nonempty (split_dot (strip_quotes (replace_lbracket path)))) as Hn.
  revert Hf Hn. generalize (filter_boolean (split_dot (strip_quotes (replace_lbracket path)))).
  induction l as [|t l IH]; [reflexivity|]. simpl. intros Hf Hn.
  apply andb_prop in Hf as [Hf1 Hf2]. apply andb_prop in Hn as [Hn1 Hn2].
  unfold plain_token. rewrite Hn1. simpl. unfold plain_char. rewrite Hf1. simpl.
  apply IH; assumption.
Qed.

Lemma plain_string_fixed (t : string) :
  str_forallb plain_char t = true ->
  replace_lbracket t = t /\ strip_quotes t = t /\ split_dot t = [t].
Proof.
  induction t as [|c t IH]; [repeat split|]. simpl. intros H.
  apply andb_prop in H as [Hc Ht]. destruct (IH Ht) as (H1 & H2 & H3).
  unfold plain_char in Hc. apply andb_prop in Hc as [Hc1 Hc2].
  apply negb_true_iff, orb_false_iff in Hc1 as [Hb Hq]. apply negb_true_iff in Hc2.
  rewrite Hb, H1, Hq, H2, Hc2, H3. repeat split.
Qed.

Lemma tokenize_plain_token (t : string) : plain_token t = true -> tokenize t = [t].
Proof.
  unfold plain_token. intros H. apply andb_prop in H as [Hne Ht].
  destruct (plain_string_fixed t Ht) as (H1 & H2 & H3).
  unfold tokenize. rewrite H1, H2, H3. unfold filter_boolean. simpl. rewrite Hne. reflexivity.
Qed.

Lemma tokenize_concat (l : list string) :
  tokenize (String.concat "." l) = List.concat (map tokenize l).
Proof.
  induction l as [|t l IH]; [reflexivity|].
  destruct l as [|t' l].
  - simpl. rewrite app_nil_r. reflexivity.
  - change (String.concat "." (t :: t' :: l)) with (t ++ "." ++ String.concat "." (t' :: l))%string.
    rewrite tokenize_app_dot, IH. reflexivity.
Qed.

(** The loop leaves the cache alone and prints at most one warning, none
    without [debug]. *)
Lemma walk_logs (options : SafeGetOptions) keys :
  forall current w r w', walk options keys current w = Ok (r, w') ->
  pathCache w' = pathCache w /\
  exists logs, console w' = console w ++ logs /\ length logs <= 1 /\
               (debug options = false -> logs = []).
Proof.
  induction keys as [|k rest IH]; intros current w r w' H.
  - simpl in H. unfold ret in H. injection H as _ <-.
    split; [reflexivity|]. exists []. rewrite app_nil_r. auto.
  - simpl in H. destruct (is_null current || is_undefined current
                          || negb (String.eqb (js_typeof current) "object")).
    + unfold_monad. destruct (debug options) eqn:D; simpl in H; injection H as _ <-.
      * split; [reflexivity|]. eexists; split; [reflexivity|]. simpl. split; [lia|congruence].
      * split; [reflexivity|]. exists []. rewrite app_nil_r. auto.
    + unfold_monad. destruct (js_hasOwn current k) as [[|]|]; try discriminate.
      * destruct (js_get current k); try discriminate. eapply IH; eauto.
      * destruct (debug options) eqn:D; simpl in H; injection H as _ <-.
        -- split; [reflexivity|]. eexists; split; [reflexivity|]. simpl. split; [lia|congruence].
        -- split; [reflexivity|]. exists []. rewrite app_nil_r. auto.
Qed.

Lemma cached_keys_effect path w keys w' :
  cached_keys path w = Ok (keys, w') ->
  console w' = console w /\
  keys = match pathCache w !! path with Some ks => ks | None => tokenize path end /\
  pathCache w' = match pathCache w !! path with
                 | Some _ => pathCache w
                 | None => <[path := tokenize path]> (pathCache w)
                 end.
Proof.
  unfold cached_keys, cache_get, cache_set, bind, ret.
  destruct (pathCache w !! path); intros H; injection H as <- <-; auto.
Qed.

Lemma walk_app_none (options : SafeGetOptions) ks1 ks2 :
  forall current w w1,
    walk options ks1 current w = Ok (None, w1) ->
    walk options (ks1 ++ ks2) current w = Ok (None, w1).
Proof.
  induction ks1 as [|k ks1 IH]; intros current w w1 H.
  - simpl in H. unfold ret in H. discriminate.
  - simpl in *. destruct (is_null current || is_undefined current
                          || negb (String.eqb (js_typeof current) "object")).
    + exact H.
    + unfold_monad. destruct (js_hasOwn current k) as [[|]|]; try discriminate.
      * destruct (js_get current k); try discriminate. apply IH, H.
      * exact H.
Qed.

(** Inverting a call on a traversable root. *)
Lemma safeGet_inv obj path d options w v w' :
  traversable obj = true ->
  safeGet obj path d options w = Ok (v, w') ->
  exists keys w1 r, cached_keys path w = Ok (keys, w1) /\
                    walk options keys obj w1 = Ok (r, w') /\ v = finish options d r.
Proof.
  intros Ht H. rewrite safeGet_traversable in H by exact Ht.
  unfold bind at 1 in H. destruct (cached_keys path w) as [[keys w1]|] eqn:Hk; [|discriminate].
  unfold bind in H. destruct (walk options keys obj w1) as [[r w2]|] eqn:Hw; [|discriminate].
  rewrite finish_ret in H. unfold ret in H. injection H as <- <-.
  exists keys, w1, r. auto.
Qed.

(** A step that fails ends the call with the default. *)
Lemma run_value_stops obj path d options w ks1 k ks2 cur w1 w2 w3 :
  cache_okb (pathCache w) = true ->
  tokenize path = ks1 ++ k :: ks2 ->
  walk options ks1 obj w1 = Ok (Some cur, w2) ->
  walk options (k :: ks2) cur w2 = Ok (None, w3) ->
  run_value obj path d options w = Ok d.
Proof.
  intros Hc Htok Hw Hstop. destruct (traversable obj) eqn:Ht.
  - rewrite (run_value_walk obj path d options w None w1 w3 Hc Ht); [reflexivity|].
    rewrite Htok, (walk_app options ks1 (k :: ks2) obj w1 cur w2 Hw). exact Hstop.
  - unfold run_value. rewrite safeGet_root_guard by exact Ht. reflexivity.
Qed.

(** Lemmas on prototype-free copies. *)
Lemma lookup_own_strip (k : string) (own : list (string * value)) :
  lookup_own k (map (fun '(k, x) => (k, strip_protos x)) own)
  = option_map strip_protos (lookup_own k own).
Proof.
  induction own as [|[k' x] own IH]; [reflexivity|]. simpl.
  destruct (String.eqb k k'); [reflexivity|exact IH].
Qed.

Lemma hasOwn_strip (v : value) (k : string) : js_hasOwn (strip_protos v) k = js_hasOwn v k.
Proof.
  destruct v; simpl; try reflexivity.
  - rewrite length_map. reflexivity.
  - rewrite lookup_own_strip. destruct (lookup_own k own); reflexivity.
Qed.

Lemma traversable_strip (v : value) : traversable (strip_protos v) = traversable v.
Proof. destruct v; reflexivity. Qed.

Lemma get_prop_strip (v : value) (k : string) :
  js_hasOwn v k = Ok true -> get_prop (strip_protos v) k = strip_protos (get_prop v k).
Proof.
  intros Ho. destruct v; simpl in *; try discriminate.
  - destruct (String.eqb k "length"); [reflexivity|].
    destruct (array_index k (String.length s)) as [i|]; [|reflexivity].
    destruct (String.get i s); reflexivity.
  - rewrite length_map. destruct (String.eqb k "length"); [reflexivity|].
    destruct (array_index k (length items)) as [i|]; [|reflexivity].
    change VUndef with (strip_protos VUndef) at 1. apply map_nth.
  - rewrite lookup_own_strip. destruct (lookup_own k own) as [x|]; [reflexivity|discriminate].
Qed.

(** The loop on a prototype-free copy ends like the loop on the original,
    with the copy of the value it reaches. *)
Lemma walk_strip (options : SafeGetOptions) keys :
  forall current, exists r,
    (forall w, exists w', walk options keys current w = Ok (r, w')) /\
    (forall w, exists w', walk options keys (strip_protos current) w
                          = Ok (option_map strip_protos r, w')).
Proof.
  induction keys as [|k rest IH]; intros current.
  - exists (Some current). simpl. unfold ret. split; eauto.
  - destruct (traversable current) eqn:Ht.
    + destruct (js_hasOwn current k) as [[|]|] eqn:Ho.
      * destruct (IH (get_prop current k)) as (r & H1 & H2). exists r. split; intros w.
        -- rewrite walk_step_own by assumption. apply H1.
        -- rewrite walk_step_own by (rewrite ?traversable_strip, ?hasOwn_strip; assumption).
           rewrite get_prop_strip by exact Ho. apply H2.
      * exists None. split; intros w; [apply walk_step_missing, Ho|].
        apply walk_step_missing. rewrite hasOwn_strip. exact Ho.
      * destruct current; discriminate.
    + exists None. split; intros w; apply walk_stop_untraversable;
        rewrite ?traversable_strip; exact Ht.
Qed.

Lemma finish_strip (options : SafeGetOptions) (d : value) (r : option value) :
  strip_protos d = d ->
  finish options d (option_map strip_protos r) = strip_protos (finish options d r).
Proof.
  intros Hd. destruct r as [c|]; simpl; [|congruence].
  assert (E : is_undefined (strip_protos c) = is_undefined c /\
              is_null (strip_protos c) = is_null c /\
              is_empty_string (strip_protos c) = is_empty_string c)
    by (destruct c; auto).
  destruct E as (-> & -> & ->).
  destruct (is_undefined c); [congruence|].
  destruct (is_null c && treatNullAsMissing options); [congruence|].
  destruct (is_empty_string c && treatEmptyStringAsMissing options); [congruence|].
  reflexivity.
Qed.

Lemma run_value_finish obj path d options w keys w1 r w2 :
  traversable obj = true ->
  cached_keys path w = Ok (keys, w1) ->
  walk options keys obj w1 = Ok (r, w2) ->
  run_value obj path d options w = Ok (finish options d r).
Proof.
  intros Ht Hk Hw. unfold run_value. rewrite safeGet_traversable by exact Ht.
  unfold bind at 1. rewrite Hk. unfold bind. rewrite Hw, finish_ret. reflexivity.
Qed.

(** Lemmas on copies without the non-plain keys. *)
Lemma lookup_own_drop (k : string) (own : list (string * value)) :
  plain_token k = true ->
  lookup_own k (List.filter (fun '(k, _) => plain_token k)
                  (map (fun '(k, x) => (k, drop_unplain x)) own))
  = option_map drop_unplain (lookup_own k own).
Proof.
  intros Hk. induction own as [|[k' x] own IH]; [reflexivity|]. simpl.
  destruct (String.eqb k k') eqn:E.
  - apply String.eqb_eq in E. subst k'. rewrite Hk. simpl. rewrite String.eqb_refl.
    reflexivity.
  - destruct (plain_token k'); simpl; [rewrite E|]; exact IH.
Qed.

Lemma hasOwn_drop (v : value) (k : string) :
  plain_token k = true -> js_hasOwn (drop_unplain v) k = js_hasOwn v k.
Proof.
  intros Hk. destruct v; simpl; try reflexivity.
  - rewrite length_map. reflexivity.
  - rewrite (lookup_own_drop k own Hk). destruct (lookup_own k own); reflexivity.
Qed.

Lemma traversable_drop (v : value) : traversable (drop_unplain v) = traversable v.
Proof. destruct v; reflexivity. Qed.

Lemma get_prop_drop (v : value) (k : string) :
  plain_token k = true ->
  js_hasOwn v k = Ok true -> get_prop (drop_unplain v) k = drop_unplain (get_prop v k).
Proof.
  intros Hk Ho. destruct v; simpl in *; try discriminate.
  - destruct (String.eqb k "length"); [reflexivity|].
    destruct (array_index k (String.length s)) as [i|]; [|reflexivity].
    destruct (String.get i s); reflexivity.
  - rewrite length_map. destruct (String.eqb k "length"); [reflexivity|].
    destruct (array_index k (length items)) as [i|]; [|reflexivity].
    change VUndef with (drop_unplain VUndef) at 1. apply map_nth.
  - rewrite (lookup_own_drop k own Hk).
    destruct (lookup_own k own) as [x|]; [reflexivity|discriminate].
Qed.

(** On plain keys, the loop on the copy ends like the loop on the original,
    with the copy of the value it reaches. *)
Lemma walk_drop (options : SafeGetOptions) keys :
  forallb plain_token keys = true ->
  forall current, exists r,
    (forall w, exists w', walk options keys current w = Ok (r, w')) /\
    (forall w, exists w', walk options keys (drop_unplain current) w
                          = Ok (option_map drop_unplain r, w')).
Proof.
  induction keys as [|k rest IH]; intros Hp current.
  - exists (Some current). simpl. unfold ret. split; eauto.
  - simpl in Hp. apply andb_prop in Hp as [Hk Hrest].
    destruct (traversable current) eqn:Ht.
    + destruct (js_hasOwn current k) as [[|]|] eqn:Ho.
      * destruct (IH Hrest (get_prop current k)) as (r & H1 & H2). exists r. split; intros w.
        -- rewrite walk_step_own by assumption. apply H1.
        -- rewrite walk_step_own by (rewrite ?traversable_drop, ?(hasOwn_drop _ _ Hk); assumption).
           rewrite (get_prop_drop _ _ Hk Ho). apply H2.
      * exists None. split; intros w; [apply walk_step_missing, Ho|].
        apply walk_step_missing. rewrite (hasOwn_drop _ _ Hk). exact Ho.
      * destruct current; discriminate.
    + exists None. split; intros w; apply walk_stop_untraversable;
        rewrite ?traversable_drop; exact Ht.
Qed.

Lemma finish_drop (options : SafeGetOptions) (d : value) (r : option value) :
  drop_unplain d = d ->
  finish options d (option_map drop_unplain r) = drop_unplain (finish options d r).
Proof.
  intros Hd. destruct r as [c|]; simpl; [|congruence].
  assert (E : is_undefined (drop_unplain c) = is_undefined c /\
              is_null (drop_unplain c) = is_null c /\
              is_empty_string (drop_unplain c) = is_empty_string c)
    by (destruct c; auto).
  destruct E as (-> & -> & ->).
  destruct (is_undefined c); [congruence|].
  destruct (is_null c && treatNullAsMissing options); [congruence|].
  destruct (is_empty_string c && treatEmptyStringAsMissing options); [congruence|].
  reflexivity.
Qed.

(** ** Claims *)

(** C2: for every root, path, default value, options and process state,
    [safeGet] returns a value: it never throws. *)
Theorem safeGet_never_throws (obj : value) (path : string) (d : value)
  (options : SafeGetOptions) (w : world) :
  exists v w', safeGet obj path d options w = Ok (v, w').
Proof.
  destruct (traversable obj) eqn:Ht.
  - rewrite safeGet_traversable by exact Ht.
    destruct (cached_keys_total path w) as (keys & c' & Hk).
    destruct (walk_spec options keys obj) as (r & logs & Hs).
    unfold bind at 1. rewrite Hk. unfold bind. rewrite Hs. rewrite finish_ret.
    unfold ret. eauto.
  - rewrite safeGet_root_guard by exact Ht. eauto.
Qed.

(** C5: on a root that is null, undefined or a scalar (not a Sequence nor a
    Mapping), [safeGet] returns the default at once: the cache is not
    touched (the path is not even tokenized) and the only possible output
    is the root warning under [debug]. *)
Theorem root_guard_returns_default (obj : value) (path : string) (d : value)
  (options : SafeGetOptions) (w : world) :
  traversable obj = false ->
  safeGet obj path d options w
  = Ok (d, {| pathCache := pathCache w;
              console := console w ++ (if debug options then [WarnNotObject obj] else []) |}).
Proof. intros Ht. apply safeGet_root_guard. exact Ht. Qed.

Lemma root_guard_returns_default_witness :
  traversable (VNum 42) = false /\
  safeGet (VNum 42) "a.b" (VStr "default") default_options initial_world
  = Ok (VStr "default", {| pathCache := ∅; console := [] |}).
Proof.
  split; [reflexivity|].
  apply (root_guard_returns_default (VNum 42) "a.b" (VStr "default") default_options initial_world).
  reflexivity.
Defined.

(** C9: the [debug] flag never changes the value returned. *)
Theorem debug_flag_irrelevant (obj : value) (path : string) (d : value)
  (tn te : bool) (w : world) :
  run_value obj path d {| treatNullAsMissing := tn; treatEmptyStringAsMissing := te; debug := true |} w
  = run_value obj path d {| treatNullAsMissing := tn; treatEmptyStringAsMissing := te; debug := false |} w.
Proof.
  unfold run_value. destruct (traversable obj) eqn:Ht.
  - rewrite !safeGet_traversable by exact Ht.
    destruct (cached_keys_total path w) as (keys & c' & Hk).
    set (o1 := {| treatNullAsMissing := tn; treatEmptyStringAsMissing := te; debug := true |}).
    set (o2 := {| treatNullAsMissing := tn; treatEmptyStringAsMissing := te; debug := false |}).
    destruct (walk_spec o1 keys obj) as (r1 & logs1 & H1).
    destruct (walk_spec o2 keys obj) as (r2 & logs2 & H2).
    assert (r1 = r2) as <- by (eapply (walk_outcome_indep o1 o2 keys obj w w); [apply H1 | apply H2]).
    unfold bind at 1 3. rewrite Hk. unfold bind. rewrite H1, H2, !finish_ret.
    unfold ret. reflexivity.
  - rewrite !safeGet_root_guard by exact Ht. reflexivity.
Qed.

(** C10: on a Sequence or Mapping root, a path that tokenizes to no key at
    all (such as the empty string or "[]") returns the root itself. *)
Theorem empty_path_returns_root (obj : value) (path : string) (d : value)
  (options : SafeGetOptions) (w : world) :
  traversable obj = true ->
  tokenize path = [] ->
  cache_okb (pathCache w) = true ->
  run_value obj path d options w = Ok obj.
Proof.
  intros Ht Htok Hc.
  rewrite (run_value_walk obj path d options w (Some obj) w w Hc Ht).
  - destruct obj; try discriminate; reflexivity.
  - rewrite Htok. reflexivity.
Qed.

Lemma empty_path_returns_root_witness :
  traversable testObj = true /\ tokenize "['']." = [] /\ cache_okb (pathCache initial_world) = true /\
  run_value testObj "['']." VUndef default_options initial_world = Ok testObj.
Proof.
  split; [reflexivity|]. split; [reflexivity|]. split; [apply cache_okb_empty|].
  apply (empty_path_returns_root testObj "['']." VUndef default_options initial_world);
    [reflexivity | reflexivity | apply cache_okb_empty].
Defined.

(** C4: once the loop has reached [cur], the post-walk checks apply in
    order: undefined gives the default whatever the flags; null gives the
    default exactly when [treatNullAsMissing]; the empty string gives the
    default exactly when [treatEmptyStringAsMissing]; any other value is
    returned unchanged. *)
Theorem post_walk_checks (obj : value) (path : string) (d : value)
  (options : SafeGetOptions) (w w1 w2 : world) (cur : value) :
  cache_okb (pathCache w) = true ->
  traversable obj = true ->
  walk options (tokenize path) obj w1 = Ok (Some cur, w2) ->
  (cur = VUndef -> run_value obj path d options w = Ok d) /\
  (cur = VNull ->
     run_value obj path d options w = Ok (if treatNullAsMissing options then d else VNull)) /\
  (cur = VStr "" ->
     run_value obj path d options w
     = Ok (if treatEmptyStringAsMissing options then d else VStr "")) /\
  (cur <> VUndef -> cur <> VNull -> cur <> VStr "" -> run_value obj path d options w = Ok cur).
Proof.
  intros Hc Ht Hw. rewrite (run_value_walk obj path d options w (Some cur) w1 w2 Hc Ht Hw).
  simpl. split; [|split; [|split]].
  - intros ->. reflexivity.
  - intros ->. simpl. destruct (treatNullAsMissing options); reflexivity.
  - intros ->. simpl. destruct (treatEmptyStringAsMissing options); reflexivity.
  - intros H1 H2 H3. destruct cur; simpl; try reflexivity; try congruence.
    destruct (String.eqb s "") eqn:E; [|reflexivity].
    apply String.eqb_eq in E. congruence.
Qed.

Definition bio_obj (bio : value) : value := obj_lit [("user", obj_lit [("bio", bio)])].

Lemma post_walk_checks_witness :
  cache_okb (pathCache initial_world) = true /\ traversable (bio_obj VNull) = true /\
  walk default_options (tokenize "user.bio") (bio_obj VNull) initial_world
  = Ok (Some VNull, initial_world) /\
  run_value (bio_obj VNull) "user.bio" (VStr "default") default_options initial_world = Ok VNull.
Proof.
  split; [apply cache_okb_empty|]. split; [reflexivity|]. split; [reflexivity|].
  destruct (post_walk_checks (bio_obj VNull) "user.bio" (VStr "default") default_options
              initial_world initial_world initial_world VNull cache_okb_empty eq_refl eq_refl)
    as (_ & Hnull & _).
  exact (Hnull eq_refl).
Defined.

(** C6: if the value reached after some keys of the path is null,
    undefined or a scalar, the remaining keys are not followed and the
    default is returned (no throw). *)
Theorem untraversable_intermediate_default (obj : value) (path : string) (d : value)
  (options : SafeGetOptions) (w : world) (ks1 : list string) (k : string)
  (ks2 : list string) (cur : value) (w1 w2 : world) :
  cache_okb (pathCache w) = true ->
  tokenize path = ks1 ++ k :: ks2 ->
  walk options ks1 obj w1 = Ok (Some cur, w2) ->
  traversable cur = false ->
  run_value obj path d options w = Ok d.
Proof.
  intros Hc Htok Hw Hcur. destruct (traversable obj) eqn:Ht.
  - destruct (walk_stop_untraversable options k ks2 cur w2 Hcur) as (w3 & E).
    rewrite (run_value_walk obj path d options w None w1 w3 Hc Ht); [reflexivity|].
    rewrite Htok, (walk_app options ks1 (k :: ks2) obj w1 cur w2 Hw). exact E.
  - unfold run_value. rewrite safeGet_root_guard by exact Ht. reflexivity.
Qed.

Definition null_b_obj : value := obj_lit [("a", obj_lit [("b", VNull)])].

Lemma untraversable_intermediate_default_witness :
  cache_okb (pathCache initial_world) = true /\
  tokenize "a.b.c" = ["a"; "b"] ++ "c" :: [] /\
  walk default_options ["a"; "b"] null_b_obj initial_world = Ok (Some VNull, initial_world) /\
  traversable VNull = false /\
  run_value null_b_obj "a.b.c" (VStr "d") default_options initial_world = Ok (VStr "d").
Proof.
  split; [apply cache_okb_empty|]. split; [reflexivity|]. split; [reflexivity|].
  split; [reflexivity|].
  apply (untraversable_intermediate_default null_b_obj "a.b.c" (VStr "d") default_options
           initial_world ["a"; "b"] "c" [] VNull initial_world initial_world);
    [apply cache_okb_empty | reflexivity | reflexivity | reflexivity].
Defined.

(** C8: the path cache never changes a result.  From a consistent cache
    (one reached from the empty cache by calls of [safeGet]): the result
    equals the one computed with an empty cache (fresh tokenization); the
    call leaves the cache consistent and a second identical call returns
    the same value; and under the default options the result equals the
    one of the earlier, uncached version. *)
Theorem path_cache_transparent (obj : value) (path : string) (d : value)
  (options : SafeGetOptions) (w : world) :
  cache_okb (pathCache w) = true ->
  run_value obj path d options w
  = run_value obj path d options {| pathCache := ∅; console := console w |} /\
  (exists v w', safeGet obj path d options w = Ok (v, w') /\
                cache_okb (pathCache w') = true /\
                run_value obj path d options w' = Ok v) /\
  run_value obj path d default_options w = safeGet_v1 obj path d.
Proof.
  intros Hc. destruct (traversable obj) eqn:Ht.
  - destruct (walk_spec options (tokenize path) obj) as (r & logs & Hs).
    destruct (walk_spec default_options (tokenize path) obj) as (r0 & logs0 & Hs0).
    split; [|split].
    + rewrite (run_value_walk obj path d options w r w _ Hc Ht (Hs w)).
      rewrite (run_value_walk obj path d options {| pathCache := ∅; console := console w |}
                 r w _ cache_okb_empty Ht (Hs w)).
      reflexivity.
    + destruct (safeGet_walk obj path d options w r w _ Hc Ht (Hs w)) as (w' & E & Hc').
      exists (finish options d r), w'. split; [exact E|]. split; [exact Hc'|].
      apply (run_value_walk obj path d options w' r w _ Hc' Ht (Hs w)).
    + rewrite (run_value_walk obj path d default_options w r0 w _ Hc Ht (Hs0 w)).
      unfold safeGet_v1. rewrite root_guard_traversable, Ht. simpl.
      rewrite (walk_v1_walk default_options (tokenize path) obj w r0 _ (Hs0 w)).
      destruct r0 as [current|]; [|reflexivity]. simpl.
      rewrite !andb_false_r. destruct (is_undefined current); reflexivity.
  - unfold run_value. rewrite !safeGet_root_guard by exact Ht.
    unfold safeGet_v1. rewrite root_guard_traversable, Ht. simpl.
    split; [reflexivity|]. split; [|reflexivity].
    eexists _, _. split; [reflexivity|]. split; [exact Hc|].
    rewrite safeGet_root_guard by exact Ht. reflexivity.
Qed.

(** A state whose cache already holds the path: the call is a cache hit. *)
Definition cached_world : world :=
  {| pathCache := <["user.tags[1]" := ["user"; "tags"; "1"]]> ∅; console := [] |}.

Lemma path_cache_transparent_witness :
  cached_world.(pathCache) !! "user.tags[1]" = Some ["user"; "tags"; "1"] /\
  cache_okb (pathCache cached_world) = true /\
  run_value testObj "user.tags[1]" VUndef default_options cached_world
  = run_value testObj "user.tags[1]" VUndef default_options
      {| pathCache := ∅; console := console cached_world |} /\
  run_value testObj "user.tags[1]" VUndef default_options cached_world
  = safeGet_v1 testObj "user.tags[1]" VUndef.
Proof.
  assert (Hc : cache_okb (pathCache cached_world) = true) by (vm_compute; reflexivity).
  destruct (path_cache_transparent testObj "user.tags[1]" VUndef default_options cached_world Hc)
    as (H1 & _ & H3).
  split; [reflexivity|]. split; [exact Hc|]. split; [exact H1 | exact H3].
Defined.

(** C1 (as stated: reserved keys are absent even as own keys) fails: an
    object literal owning [constructor], or an object parsed from JSON
    owning [__proto__], yields that own value, not the default. *)
Lemma reserved_keys_counterexample :
  call (obj_lit [("constructor", VStr "Bob")]) "constructor" (VStr "d") = Ok (VStr "Bob") /\
  call (obj_lit [("constructor", VStr "Bob")]) "constructor" (VStr "d") <> Ok (VStr "d") /\
  call (VObj [("__proto__", VNum 1)] object_prototype) "__proto__" (VStr "d") = Ok (VNum 1).
Proof. split; [reflexivity|]. split; [discriminate|reflexivity]. Qed.

(** C1 (amended): for a reserved key [k] ([__proto__], [constructor],
    [prototype]) in any position of the path, if the value reached before
    it is not a Mapping owning [k] (a Sequence, a scalar, or a Mapping that
    would only inherit [k] through its prototype chain), the call returns
    the default; an own key of that name is followed like any other key. *)
Theorem reserved_keys_own_only (k : string) :
  In k reserved_keys ->
  (forall obj path d options w ks1 ks2 cur w1 w2,
     cache_okb (pathCache w) = true ->
     tokenize path = ks1 ++ k :: ks2 ->
     walk options ks1 obj w1 = Ok (Some cur, w2) ->
     (forall own proto, cur = VObj own proto -> lookup_own k own = None) ->
     run_value obj path d options w = Ok d) /\
  (forall options own proto v ks w,
     lookup_own k own = Some v ->
     walk options (k :: ks) (VObj own proto) w = walk options ks v w).
Proof.
  intros Hk. destruct (reserved_not_array_key k Hk) as [Hlen Hidx]. split.
  - intros obj path d options w ks1 ks2 cur w1 w2 Hc Htok Hw Hown.
    assert (exists w3, walk options (k :: ks2) cur w2 = Ok (None, w3)) as [w3 Hstop].
    { destruct cur as [| | | | |l|own proto];
        try (apply walk_stop_untraversable; reflexivity).
      - apply walk_step_missing, hasOwn_arr_absent; [exact Hlen|].
        intros i _. apply Hidx.
      - apply walk_step_missing. simpl. rewrite (Hown own proto eq_refl). reflexivity. }
    exact (run_value_stops obj path d options w ks1 k ks2 cur w1 w2 w3 Hc Htok Hw Hstop).
  - intros options own proto v ks w Hl.
    rewrite walk_step_own; [| reflexivity | simpl; rewrite Hl; reflexivity].
    simpl. rewrite Hl. reflexivity.
Qed.

Lemma reserved_keys_own_only_witness :
  In "constructor" reserved_keys /\
  cache_okb (pathCache initial_world) = true /\
  tokenize "constructor" = [] ++ "constructor" :: [] /\
  walk default_options [] testObj initial_world = Ok (Some testObj, initial_world) /\
  run_value testObj "constructor" (VStr "d") default_options initial_world = Ok (VStr "d").
Proof.
  split; [simpl; auto|]. split; [apply cache_okb_empty|]. split; [reflexivity|].
  split; [reflexivity|].
  destruct (reserved_keys_own_only "constructor" (or_intror (or_introl eq_refl))) as [H _].
  apply (H testObj "constructor" (VStr "d") default_options initial_world [] []
           testObj initial_world initial_world cache_okb_empty eq_refl eq_refl).
  intros own proto E. injection E as <- <-. reflexivity.
Defined.

(** C3 (as stated: on a Sequence, exactly the keys that parse as an
    in-range index are present) fails: ["length"] is an own key of every
    array, and ["01"] (which parses as 1) is not an index key. *)
Lemma sequence_keys_counterexample :
  call (obj_lit [("tags", VArr [VStr "a"; VStr "b"])]) "tags.length" (VStr "d") = Ok (VNum 2) /\
  call (obj_lit [("tags", VArr [VStr "a"; VStr "b"])]) "tags.01" (VStr "d") = Ok (VStr "d") /\
  call (obj_lit [("tags", VArr [VStr "a"; VStr "b"])]) "tags.1" (VStr "d") = Ok (VStr "b").
Proof. split; [reflexivity|]. split; reflexivity. Qed.

(** C3 (amended): on a Sequence [l], the key ["length"] is present and
    yields the length; the canonical decimal string of an index [i] below
    the length is present and yields the [i]-th element; every other key
    is absent and the call returns the default. *)
Theorem sequence_key_presence (options : SafeGetOptions) (l : list value) (k : string)
  (ks : list string) (w : world) :
  (k = "length" ->
     walk options (k :: ks) (VArr l) w = walk options ks (VNum (Z.of_nat (length l))) w) /\
  (forall i, i < length l -> k = string_of_nat i ->
     walk options (k :: ks) (VArr l) w = walk options ks (nth i l VUndef) w) /\
  (k <> "length" -> (forall i, i < length l -> k <> string_of_nat i) ->
     forall obj path d w0 ks1 w1,
       cache_okb (pathCache w0) = true ->
       tokenize path = ks1 ++ k :: ks ->
       walk options ks1 obj w1 = Ok (Some (VArr l), w) ->
       run_value obj path d options w0 = Ok d).
Proof.
  split; [|split].
  - intros ->. rewrite (walk_step_own options "length" ks (VArr l) w eq_refl eq_refl).
    reflexivity.
  - intros i Hi ->. rewrite walk_step_own by (reflexivity || apply hasOwn_arr_index, Hi).
    rewrite get_prop_arr_index by exact Hi. reflexivity.
  - intros Hlen Hidx obj path d w0 ks1 w1 Hc Htok Hw.
    destruct (walk_step_missing options k ks (VArr l) w (hasOwn_arr_absent l k Hlen Hidx))
      as (w3 & Hstop).
    exact (run_value_stops obj path d options w0 ks1 k ks (VArr l) w1 w w3 Hc Htok Hw Hstop).
Qed.

Definition tags_obj : value := obj_lit [("tags", VArr [VStr "a"; VStr "b"])].

Lemma sequence_key_presence_witness :
  run_value tags_obj "tags.2" (VStr "d") default_options initial_world = Ok (VStr "d").
Proof.
  destruct (sequence_key_presence default_options [VStr "a"; VStr "b"] "2" [] initial_world)
    as (_ & _ & H).
  refine (H _ _ tags_obj "tags.2" (VStr "d") initial_world ["tags"] initial_world _ _ _).
  - discriminate.
  - intros i Hi E. destruct i as [|[|i]]; [discriminate|discriminate|simpl in Hi; lia].
  - apply cache_okb_empty.
  - reflexivity.
  - reflexivity.
Defined.

(** C7 (as stated: both forms yield [s[i]]) fails when [s[i]] is
    [undefined]: the post-walk check returns the default instead. *)
Lemma dot_bracket_counterexample :
  call (obj_lit [("x", VArr [VUndef])]) "x.0" (VStr "d") = Ok (VStr "d") /\
  call (obj_lit [("x", VArr [VUndef])]) "x[0]" (VStr "d") = Ok (VStr "d") /\
  call (obj_lit [("x", VArr [VUndef])]) "x.0" (VStr "d") <> Ok VUndef.
Proof. split; [reflexivity|]. split; [reflexivity|discriminate]. Qed.

(** C7 (amended): dot and bracket index notation tokenize alike, so for a
    path prefix [p] reaching a Sequence [s] and an index [i] below its
    length, [p.i] and [p[i]] give the same result under every options; it
    is [s[i]] when both missingness flags are off (as by default) and
    [s[i]] is not undefined, and the default when [s[i]] is undefined.
    The three example paths tokenize to the same keys. *)
Theorem dot_bracket_equivalence (root : value) (p : string) (s : list value) (i : nat)
  (d : value) (options : SafeGetOptions) (w w1 w2 : world) :
  cache_okb (pathCache w) = true ->
  walk options (tokenize p) root w1 = Ok (Some (VArr s), w2) ->
  i < length s ->
  run_value root (p ++ "." ++ string_of_nat i) d options w
  = run_value root (p ++ "[" ++ string_of_nat i ++ "]") d options w /\
  (treatNullAsMissing options = false -> treatEmptyStringAsMissing options = false ->
   nth i s VUndef <> VUndef ->
   run_value root (p ++ "." ++ string_of_nat i) d options w = Ok (nth i s VUndef)) /\
  (nth i s VUndef = VUndef ->
   run_value root (p ++ "." ++ string_of_nat i) d options w = Ok d) /\
  tokenize "a.b[0].c" = tokenize "a.b.0.c" /\
  tokenize "a['b'][0].c" = tokenize "a.b.0.c".
Proof.
  intros Hc Hw Hi.
  assert (Hroot : traversable root = true)
    by exact (walk_some_traversable options (tokenize p) root w1 (VArr s) w2 Hw eq_refl).
  assert (Hstep : walk options (tokenize p ++ [string_of_nat i]) root w1
                  = Ok (Some (nth i s VUndef), w2)).
  { rewrite (walk_app options (tokenize p) [string_of_nat i] root w1 (VArr s) w2 Hw).
    rewrite walk_step_own by (reflexivity || apply hasOwn_arr_index, Hi).
    rewrite get_prop_arr_index by exact Hi. reflexivity. }
  assert (Hdot : run_value root (p ++ "." ++ string_of_nat i) d options w
                 = Ok (finish options d (Some (nth i s VUndef)))).
  { apply (run_value_walk _ _ _ _ _ _ w1 w2 Hc Hroot).
    rewrite tokenize_dot_index. exact Hstep. }
  assert (Hbr : run_value root (p ++ "[" ++ string_of_nat i ++ "]") d options w
                = Ok (finish options d (Some (nth i s VUndef)))).
  { apply (run_value_walk _ _ _ _ _ _ w1 w2 Hc Hroot).
    rewrite tokenize_bracket_index. exact Hstep. }
  rewrite Hdot, Hbr. split; [reflexivity|]. split; [|split; [|split; reflexivity]].
  - intros Hn He Hu. simpl. rewrite Hn, He, !andb_false_r.
    destruct (nth i s VUndef); [congruence|reflexivity..].
  - intros Hu. simpl. rewrite Hu. reflexivity.
Qed.

Lemma dot_bracket_equivalence_witness :
  run_value testObj "user.tags.1" VUndef default_options initial_world = Ok (VStr "editor").
Proof.
  destruct (dot_bracket_equivalence testObj "user.tags" [VStr "admin"; VStr "editor"] 1 VUndef
              default_options initial_world initial_world initial_world
              cache_okb_empty eq_refl ltac:(simpl; lia)) as (_ & H & _).
  exact (H eq_refl eq_refl ltac:(discriminate)).
Defined.

(** ** Further properties of the code *)

(** X1: every key produced by the tokenizer is non-empty and contains no
    [.], [\[], [\]], single or double quote; so, with a cache holding the
    tokenization of each path, an own key that is empty or contains one of
    these characters is never reached by any path: removing all such own
    properties, at every depth, changes the result only by the same removal
    in the value returned (for a default value holding no such key). *)
Theorem tokens_are_plain (obj : value) (path : string) (d : value)
  (options : SafeGetOptions) (w : world) :
  cache_okb (pathCache w) = true ->
  drop_unplain d = d ->
  (forall t, In t (tokenize path) -> t <> "" /\ str_forallb plain_char t = true) /\
  run_value (drop_unplain obj) path d options w
  = match run_value obj path d options w with
    | Ok v => Ok (drop_unplain v)
    | Throw e => Throw e
    end.
Proof.
  intros Hc Hd. pose proof (tokenize_plain_tokens path) as Hp. split.
  - intros t Hin. rewrite forallb_forall in Hp. specialize (Hp t Hin).
    unfold plain_token in Hp. apply andb_prop in Hp as [Hne Hs].
    split; [|exact Hs]. apply negb_true_iff, String.eqb_neq in Hne. exact Hne.
  - destruct (traversable obj) eqn:Ht.
    + destruct (walk_drop options (tokenize path) Hp obj) as (r & H1 & H2).
      destruct (H1 w) as (w1 & E1). destruct (H2 w) as (w2 & E2).
      rewrite (run_value_walk obj path d options w r w w1 Hc Ht E1).
      rewrite (run_value_walk (drop_unplain obj) path d options w _ w w2 Hc
                 ltac:(rewrite traversable_drop; exact Ht) E2).
      rewrite finish_drop by exact Hd. reflexivity.
    + unfold run_value. rewrite !safeGet_root_guard by (rewrite ?traversable_drop; exact Ht).
      rewrite Hd. reflexivity.
Qed.

Lemma tokens_are_plain_witness :
  cache_okb (pathCache initial_world) = true /\ drop_unplain VUndef = VUndef /\
  run_value (drop_unplain (obj_lit [("a.b", VNum 1); ("a", obj_lit [("b", VNum 2)])]))
    "a.b" VUndef default_options initial_world = Ok (VNum 2).
Proof.
  split; [apply cache_okb_empty|]. split; [reflexivity|].
  rewrite (proj2 (tokens_are_plain (obj_lit [("a.b", VNum 1); ("a", obj_lit [("b", VNum 2)])])
                    "a.b" VUndef default_options initial_world cache_okb_empty eq_refl)).
  reflexivity.
Defined.

(** X2: tokenization round trip: joining the keys of a path with dots and
    tokenizing again gives back the same keys. *)
Theorem tokenize_join_roundtrip (path : string) :
  tokenize (String.concat "." (tokenize path)) = tokenize path.
Proof.
  rewrite tokenize_concat. pose proof (tokenize_plain_tokens path) as H.
  induction (tokenize path) as [|t l IH]; [reflexivity|].
  simpl in H. apply andb_prop in H as [Ht Hl].
  simpl. rewrite (tokenize_plain_token t Ht), IH by exact Hl. reflexivity.
Qed.

(** X3: tokenization distributes over a dot: [a.b] gives the keys of [a]
    followed by those of [b]; a leading or trailing dot changes nothing. *)
Theorem tokenize_dot_split (a b : string) :
  tokenize (a ++ "." ++ b) = tokenize a ++ tokenize b /\
  tokenize ("." ++ a) = tokenize a /\
  tokenize (a ++ ".") = tokenize a.
Proof.
  split; [apply tokenize_app_dot|]. split.
  - change ("." ++ a)%string with ("" ++ "." ++ a)%string.
    rewrite tokenize_app_dot. reflexivity.
  - change (a ++ ".")%string with (a ++ "." ++ "")%string.
    rewrite tokenize_app_dot. apply app_nil_r.
Qed.

(** X4: bracket notation works for every key, quoted or not: [p[k]],
    [p['k']] and [p["k"]] tokenize like [p.k]. *)
Theorem bracket_any_key (p k : string) (q : ascii) :
  is_stripped q = true ->
  tokenize (p ++ "[" ++ k ++ "]") = tokenize (p ++ "." ++ k) /\
  tokenize (p ++ "[" ++ String q (k ++ String q "]")) = tokenize (p ++ "." ++ k).
Proof.
  intros Hq. unfold tokenize. split; f_equal; f_equal.
  - rewrite !replace_lbracket_app, !strip_quotes_app. f_equal. simpl.
    rewrite string_app_nil. reflexivity.
  - rewrite !replace_lbracket_app, !strip_quotes_app. f_equal. simpl.
    destruct (Ascii.eqb q "[") eqn:E; [apply Ascii.eqb_eq in E; subst; discriminate|].
    rewrite Hq, replace_lbracket_app, strip_quotes_app. simpl. rewrite E, Hq, string_app_nil.
    reflexivity.
Qed.

Lemma bracket_any_key_witness :
  is_stripped "'" = true /\
  tokenize ("users" ++ "[" ++ String "'" ("first.name" ++ String "'" "]")) = ["users"; "first"; "name"].
Proof.
  split; [reflexivity|].
  rewrite (proj2 (bracket_any_key "users" "first.name" "'" eq_refl)). reflexivity.
Defined.

(** X5: resolution composes along a dot: if the keys of [p] lead from
    [root] to a Sequence or Mapping [v], resolving [p.q] from [root] equals
    resolving [q] from [v]; if they stop early, [p.q] gives the default. *)
Theorem resolve_compose (root : value) (p q : string) (d : value) (options : SafeGetOptions)
  (w w1 w2 : world) (r : option value) :
  cache_okb (pathCache w) = true ->
  walk options (tokenize p) root w1 = Ok (r, w2) ->
  (r = None -> run_value root (p ++ "." ++ q) d options w = Ok d) /\
  (forall v, r = Some v -> traversable v = true ->
     run_value root (p ++ "." ++ q) d options w = run_value v q d options w).
Proof.
  intros Hc Hw. split.
  - intros ->. destruct (traversable root) eqn:Ht.
    + rewrite (run_value_walk root (p ++ "." ++ q) d options w None w1 w2 Hc Ht);
        [reflexivity|].
      rewrite tokenize_app_dot. apply walk_app_none, Hw.
    + unfold run_value. rewrite safeGet_root_guard by exact Ht. reflexivity.
  - intros v -> Hv.
    pose proof (walk_some_traversable options (tokenize p) root w1 v w2 Hw Hv) as Ht.
    destruct (walk_spec options (tokenize q) v) as (r' & logs & Hs).
    rewrite (run_value_walk v q d options w r' w2 _ Hc Hv (Hs w2)).
    apply (run_value_walk root (p ++ "." ++ q) d options w r' w1
             {| pathCache := pathCache w2; console := console w2 ++ logs |} Hc Ht).
    rewrite tokenize_app_dot, (walk_app options _ _ root w1 v w2 Hw). apply Hs.
Qed.

Lemma resolve_compose_witness :
  run_value testObj "user.profile.settings.theme" VUndef default_options initial_world
  = run_value (obj_lit [("name", VStr "Alice");
                        ("settings", obj_lit [("theme", VStr "dark");
                                              ("notifications", VBool true)])])
      "settings.theme" VUndef default_options initial_world.
Proof.
  destruct (resolve_compose testObj "user.profile" "settings.theme" VUndef default_options
              initial_world initial_world initial_world
              (Some (obj_lit [("name", VStr "Alice");
                              ("settings", obj_lit [("theme", VStr "dark");
                                                    ("notifications", VBool true)])]))
              cache_okb_empty eq_refl) as [_ H].
  exact (H _ eq_refl eq_refl).
Defined.

(** X6: the missingness flags can only replace a result by the default:
    with any options the call returns what it returns with the default
    options, or the default value. *)
Theorem flags_only_substitute_default (obj : value) (path : string) (d : value)
  (options : SafeGetOptions) (w : world) :
  run_value obj path d options w = run_value obj path d default_options w \/
  run_value obj path d options w = Ok d.
Proof.
  unfold run_value. destruct (traversable obj) eqn:Ht.
  - rewrite !safeGet_traversable by exact Ht.
    destruct (cached_keys_total path w) as (keys & c' & Hk).
    destruct (walk_spec options keys obj) as (r1 & logs1 & H1).
    destruct (walk_spec default_options keys obj) as (r2 & logs2 & H2).
    assert (r1 = r2) as <- by
      (eapply (walk_outcome_indep options default_options keys obj w w); [apply H1 | apply H2]).
    unfold bind. rewrite !Hk, H1, H2, !finish_ret. unfold ret.
    destruct r1 as [cur|]; [|left; reflexivity]. simpl. rewrite !andb_false_r.
    destruct (is_undefined cur); [left; reflexivity|].
    destruct (is_null cur && treatNullAsMissing options); [right; reflexivity|].
    destruct (is_empty_string cur && treatEmptyStringAsMissing options);
      [right | left]; reflexivity.
  - rewrite !safeGet_root_guard by exact Ht. left. reflexivity.
Qed.

(** X7: a call prints at most one warning, appended to the console, and
    none when [debug] is off. *)
Theorem console_at_most_one_warning (obj : value) (path : string) (d : value)
  (options : SafeGetOptions) (w : world) (v : value) (w' : world) :
  safeGet obj path d options w = Ok (v, w') ->
  exists logs, console w' = console w ++ logs /\ length logs <= 1 /\
               (debug options = false -> logs = []).
Proof.
  intros H. destruct (traversable obj) eqn:Ht.
  - destruct (safeGet_inv obj path d options w v w' Ht H) as (keys & w1 & r & Hk & Hw & _).
    destruct (cached_keys_effect path w keys w1 Hk) as (Hcon & _ & _).
    destruct (walk_logs options keys obj w1 r w' Hw) as (_ & logs & Hl & Hlen & Hd).
    exists logs. rewrite Hl, Hcon. auto.
  - rewrite safeGet_root_guard in H by exact Ht. injection H as _ <-.
    exists (if debug options then [WarnNotObject obj] else []). simpl.
    destruct (debug options); simpl; (split; [reflexivity|split; [lia|]]); [discriminate|auto].
Qed.

Lemma console_at_most_one_warning_witness :
  exists logs,
    console {| pathCache := <["a.b" := ["a"; "b"]]> ∅; console := [WarnStopped "b" VNull] |}
    = console initial_world ++ logs /\ length logs <= 1 /\
    (debug {| treatNullAsMissing := false; treatEmptyStringAsMissing := false; debug := true |}
     = false -> logs = []).
Proof.
  apply (console_at_most_one_warning (obj_lit [("a", VNull)]) "a.b" (VStr "default")
           {| treatNullAsMissing := false; treatEmptyStringAsMissing := false; debug := true |}
           initial_world (VStr "default")).
  reflexivity.
Defined.

(** X8: the path cache only grows: no entry is ever removed or replaced,
    no other path's entry changes, a call on a Sequence or Mapping root
    leaves an entry for its path, and a call on any other root leaves the
    cache untouched. *)
Theorem path_cache_grows (obj : value) (path : string) (d : value)
  (options : SafeGetOptions) (w : world) (v : value) (w' : world) :
  safeGet obj path d options w = Ok (v, w') ->
  (forall p ks, pathCache w !! p = Some ks -> pathCache w' !! p = Some ks) /\
  (forall p, p <> path -> pathCache w' !! p = pathCache w !! p) /\
  (traversable obj = true ->
   pathCache w' !! path = Some (match pathCache w !! path with
                                | Some ks => ks
                                | None => tokenize path
                                end)) /\
  (traversable obj = false -> pathCache w' = pathCache w).
Proof.
  intros H. destruct (traversable obj) eqn:Ht.
  - destruct (safeGet_inv obj path d options w v w' Ht H) as (keys & w1 & r & Hk & Hw & _).
    destruct (cached_keys_effect path w keys w1 Hk) as (_ & _ & Hc).
    destruct (walk_logs options keys obj w1 r w' Hw) as (Hc' & _).
    rewrite Hc', Hc. destruct (pathCache w !! path) as [ks0|] eqn:Hl.
    + split; [auto|]. split; [auto|]. split; [auto|discriminate].
    + split; [|split; [|split; [|discriminate]]].
      * intros p ks Hp. destruct (decide (path = p)) as [->|Hne]; [congruence|].
        rewrite lookup_insert_ne by exact Hne. exact Hp.
      * intros p Hne. apply lookup_insert_ne. congruence.
      * intros _. apply lookup_insert_eq.
  - rewrite safeGet_root_guard in H by exact Ht. injection H as _ <-. simpl.
    split; [auto|]. split; [auto|]. split; [discriminate|auto].
Qed.

Lemma path_cache_grows_witness :
  safeGet testObj "user.tags[1]" VUndef default_options initial_world
  = Ok (VStr "editor", {| pathCache := <["user.tags[1]" := ["user"; "tags"; "1"]]> ∅;
                          console := [] |}) /\
  (<["user.tags[1]" := ["user"; "tags"; "1"]]> ∅ : gmap string (list string)) !! "user.tags[1]"
  = Some ["user"; "tags"; "1"].
Proof.
  split; [reflexivity|].
  destruct (path_cache_grows testObj "user.tags[1]" VUndef default_options initial_world
              (VStr "editor") {| pathCache := <["user.tags[1]" := ["user"; "tags"; "1"]]> ∅;
                                 console := [] |} eq_refl) as (_ & _ & H & _).
  exact (H eq_refl).
Defined.

(** X9: the earlier version never throws either: it returns a value for
    every root, path and default. *)
Theorem safeGet_v1_never_throws (obj : value) (path : string) (d : value) :
  exists v, safeGet_v1 obj path d = Ok v.
Proof.
  unfold safeGet_v1. rewrite root_guard_traversable.
  destruct (traversable obj); simpl; [|eauto].
  destruct (walk_spec default_options (tokenize path) obj) as (r & logs & Hs).
  rewrite (walk_v1_walk default_options (tokenize path) obj initial_world r _ (Hs initial_world)).
  destruct r; eauto.
Qed.

(** X10: inherited properties are never read, at any depth: resolving a
    path in a copy of the data whose prototypes are all [null] gives the
    copy of what resolving it in the original gives (for a default value
    that holds no object with a prototype). *)
Theorem prototypes_never_read (obj : value) (path : string) (d : value)
  (options : SafeGetOptions) (w : world) :
  strip_protos d = d ->
  run_value (strip_protos obj) path d options w
  = match run_value obj path d options w with
    | Ok v => Ok (strip_protos v)
    | Throw e => Throw e
    end.
Proof.
  intros Hd. destruct (traversable obj) eqn:Ht.
  - destruct (cached_keys_total path w) as (keys & c' & Hk).
    destruct (walk_strip options keys obj) as (r & H1 & H2).
    destruct (H1 {| pathCache := c'; console := console w |}) as (w1 & E1).
    destruct (H2 {| pathCache := c'; console := console w |}) as (w2 & E2).
    rewrite (run_value_finish obj path d options w keys _ r w1 Ht Hk E1).
    rewrite (run_value_finish (strip_protos obj) path d options w keys _ _ w2
               ltac:(rewrite traversable_strip; exact Ht) Hk E2).
    rewrite finish_strip by exact Hd. reflexivity.
  - unfold run_value. rewrite !safeGet_root_guard by (rewrite ?traversable_strip; exact Ht).
    rewrite Hd. reflexivity.
Qed.

Lemma prototypes_never_read_witness :
  strip_protos VUndef = VUndef /\
  run_value (strip_protos testObj) "user.profile" VUndef default_options initial_world
  = Ok (strip_protos (obj_lit [("name", VStr "Alice");
                               ("settings", obj_lit [("theme", VStr "dark");
                                                     ("notifications", VBool true)])])).
Proof.
  split; [reflexivity|].
  rewrite (prototypes_never_read testObj "user.profile" VUndef default_options initial_world
             eq_refl).
  reflexivity.
Defined.

(** X11: the call never returns [undefined] unless the default is
    [undefined]; with [treatNullAsMissing] it never returns [null], and with
    [treatEmptyStringAsMissing] never [""], unless the default is that
    value. *)
Theorem result_not_missing (obj : value) (path : string) (d : value)
  (options : SafeGetOptions) (w : world) (v : value) :
  run_value obj path d options w = Ok v ->
  v = d \/
  (v <> VUndef /\
   (treatNullAsMissing options = true -> v <> VNull) /\
   (treatEmptyStringAsMissing options = true -> v <> VStr "")).
Proof.
  intros H. unfold run_value in H.
  destruct (safeGet obj path d options w) as [[v' w']|] eqn:E; [|discriminate].
  injection H as <-. destruct (traversable obj) eqn:Ht.
  - destruct (safeGet_inv obj path d options w v' w' Ht E) as (_ & _ & r & _ & _ & ->).
    destruct r as [c|]; simpl; [|left; reflexivity].
    destruct (is_undefined c) eqn:Hu; [left; reflexivity|].
    destruct (is_null c && treatNullAsMissing options) eqn:Hn; [left; reflexivity|].
    destruct (is_empty_string c && treatEmptyStringAsMissing options) eqn:He;
      [left; reflexivity|].
    right. split; [|split].
    + intros ->. discriminate.
    + intros Ho ->. rewrite Ho in Hn. discriminate.
    + intros Ho ->. rewrite Ho in He. discriminate.
  - rewrite safeGet_root_guard in E by exact Ht. injection E as <- _. left. reflexivity.
Qed.

Lemma result_not_missing_witness :
  run_value (bio_obj (VStr "")) "user.bio" (VStr "none")
    {| treatNullAsMissing := true; treatEmptyStringAsMissing := true; debug := false |}
    initial_world = Ok (VStr "none") /\
  (VStr "none" = VStr "none" \/
   (VStr "none" <> VUndef /\
    (true = true -> VStr "none" <> VNull) /\ (true = true -> VStr "none" <> VStr ""))).
Proof.
  split; [reflexivity|].
  apply (result_not_missing (bio_obj (VStr "")) "user.bio" (VStr "none")
           {| treatNullAsMissing := true; treatEmptyStringAsMissing := true; debug := false |}
           initial_world (VStr "none")).
  reflexivity.
Defined.

(** X12: a single plain key on a Mapping reads its own property: the
    result is the post-walk check applied to the own value, or the default
    when the key is not owned (its prototype is never consulted). *)
Theorem single_key_lookup (own : list (string * value)) (proto : value) (k : string)
  (d : value) (options : SafeGetOptions) (w : world) :
  cache_okb (pathCache w) = true ->
  plain_token k = true ->
  run_value (VObj own proto) k d options w = Ok (finish options d (lookup_own k own)).
Proof.
  intros Hc Hk.
  destruct (walk_spec options [k] (VObj own proto)) as (r & logs & Hs).
  rewrite (run_value_walk (VObj own proto) k d options w r w
             {| pathCache := pathCache w; console := console w ++ logs |} Hc eq_refl);
    [|rewrite (tokenize_plain_token k Hk); apply Hs].
  f_equal. f_equal. specialize (Hs w).
  destruct (lookup_own k own) as [x|] eqn:Hl.
  - rewrite walk_step_own in Hs by (simpl; rewrite ?Hl; reflexivity).
    assert (Hg : get_prop (VObj own proto) k = x) by (simpl; rewrite Hl; reflexivity).
    rewrite Hg in Hs. simpl in Hs. unfold ret in Hs. congruence.
  - destruct (walk_step_missing options k [] (VObj own proto) w) as (w' & E);
      [simpl; rewrite Hl; reflexivity|].
    congruence.
Qed.

Lemma single_key_lookup_witness :
  cache_okb (pathCache initial_world) = true /\ plain_token "constructor" = true /\
  run_value (obj_lit [("constructor", VStr "Bob")]) "constructor" VUndef default_options
    initial_world = Ok (VStr "Bob").
Proof.
  split; [apply cache_okb_empty|]. split; [reflexivity|].
  apply (single_key_lookup [("constructor", VStr "Bob")] object_prototype "constructor" VUndef
           default_options initial_world cache_okb_empty eq_refl).
Defined.
